(** * Projectile motion: the kinematics, the gesture functions and the frame loop

    A shallow embedding of [main.py].  Python numbers ([int] and [float]) are
    idealised as mathematical reals: [+], [-], [*] and [** 2] are the field
    operations of [R], [math.cos], [math.sin] and [math.atan] are the real
    functions, [math.pi] is [PI].  Rounding and the special float values are
    outside this model.  What can raise in the real-valued reading of the
    program ([/] on a zero divisor, [math.sqrt] on a negative argument,
    [exit()]) is kept, through a small exception monad.  The one arithmetic
    operation of the program that raises on range, [** 2], is total in the
    main definitions; module [Checked] has the two functions that use it with
    its [OverflowError]. *)

From Stdlib Require Import Reals Lra Lia ZArith Bool List.
Import ListNotations.

Open Scope R_scope.

(** ** Python exceptions and the arithmetic primitives that may raise *)

Module Py.

Inductive exn : Set :=
| ZeroDivisionError
| ValueError
| OverflowError
| SystemExit.

Inductive result (A : Type) : Type :=
| Ok (a : A)
| Raise (e : exn).

Arguments Ok {A} a.
Arguments Raise {A} e.

Definition bind {A B : Type} (m : result A) (k : A -> result B) : result B :=
  match m with
  | Ok a => k a
  | Raise e => Raise e
  end.

(** [a / b] on numbers: raises [ZeroDivisionError] when [b] is zero. *)
Definition truediv (a b : R) : result R :=
  if Req_dec_T b 0 then Raise ZeroDivisionError else Ok (a / b).

(** [math.sqrt]: raises [ValueError] (math domain error) below zero. *)
Definition sqrt (a : R) : result R :=
  if Rlt_dec a 0 then Raise ValueError else Ok (R_sqrt.sqrt a).

(** Where the squares of floats end: a square at or above this bound rounds
    to infinity. *)
Definition FLOAT_RANGE : R := IZR (2 ^ 1024 - 2 ^ 970).

(** [a ** 2] on floats: raises [OverflowError] when the result leaves the
    range of float. *)
Definition pow2 (a : R) : result R :=
  if Rle_dec FLOAT_RANGE (a ^ 2) then Raise OverflowError else Ok (a ^ 2).

(** Comparisons, as booleans. *)
Definition ltb (a b : R) : bool := if Rlt_dec a b then true else false.
Definition gtb (a b : R) : bool := ltb b a.
Definition leb (a b : R) : bool := if Rle_dec a b then true else false.
Definition neb (a b : R) : bool := if Req_dec_T a b then false else true.

End Py.

Import Py.

Notation "x <- m ;; k" := (bind m (fun x => k))
  (at level 61, m at next level, right associativity).

(** ** Constants *)

Definition WIDTH : R := 1200.
Definition HEIGHT : R := 500.

Definition RADIUS : R := 10.

Abbreviation rgb := (Z * Z * Z)%type (only parsing).

Definition BLACK : rgb := (0, 0, 0)%Z.
Definition GRAY : rgb := (64, 64, 64)%Z.
Definition WHITE : rgb := (255, 255, 255)%Z.

Definition START_X : R := WIDTH / 2.
Definition START_Y : R := HEIGHT - RADIUS - 1.

(** ** The drawing backend, as the list of primitives a frame issues *)

Abbreviation point := (R * R)%type (only parsing).

(** [pygame.mouse.get_pos()] returns a pair of integers. *)
Abbreviation pixel := (Z * Z)%type (only parsing).

Definition of_pixel (p : pixel) : point := (IZR (fst p), IZR (snd p)).

Inductive draw_cmd : Set :=
| Fill (c : rgb)
| Circle (c : rgb) (center : point) (r : R)
| DrawLine (c : rgb) (from : point) (to : pixel)
| DisplayUpdate.

(** ** Ball class *)

Module Ball.

Record t : Set := mk { x : R; y : R; radius : R; color : rgb }.

Definition set_x (b : t) (v : R) : t := mk v (y b) (radius b) (color b).
Definition set_y (b : t) (v : R) : t := mk (x b) v (radius b) (color b).

Definition draw (self : t) : list draw_cmd :=
  [ Circle BLACK (x self, y self) (radius self);
    Circle (color self) (x self, y self) (radius self - 1) ].

Definition next_position (start_x start_y power angle time : R) : R * R :=
  let velocity_x := cos angle * power in
  let velocity_y := sin angle * power in
  let distance_x := velocity_x * time in
  let distance_y := velocity_y * time - 4.9 * time ^ 2 in
  let next_x := start_x + distance_x in
  let next_y := start_y - distance_y in
  (next_x, next_y).

End Ball.

(** ** Gesture functions *)

(** A line is the list [[(ball.x, ball.y), pygame.mouse.get_pos()]]. *)
Abbreviation line := ((R * R) * (R * R))%type (only parsing).

Definition get_power (l : line) : result R :=
  r <- Py.sqrt ((snd (snd l) - snd (fst l)) ^ 2 + (fst (snd l) - fst (fst l)) ^ 2) ;;
  truediv r 8.

Definition get_angle (l : line) : result R :=
  let x := fst (fst l) in
  let y := snd (fst l) in
  let mouse_x := fst (snd l) in
  let mouse_y := snd (snd l) in
  angle <- (if neb mouse_x x
            then q <- truediv (mouse_y - y) (mouse_x - x) ;; Ok (atan q)
            else Ok (PI / 2)) ;;
  Ok (if ltb x mouse_x && gtb y mouse_y then Rabs angle
      else if gtb x mouse_x && gtb y mouse_y then PI - angle
      else if gtb x mouse_x && ltb y mouse_y then PI + Rabs angle
      else if ltb x mouse_x && ltb y mouse_y then 2 * PI - angle
      else angle).

(** ** The two functions that square, with the range of [** 2] *)

Module Checked.

Definition get_power (l : line) : result R :=
  a <- pow2 (snd (snd l) - snd (fst l)) ;;
  b <- pow2 (fst (snd l) - fst (fst l)) ;;
  r <- Py.sqrt (a + b) ;;
  truediv r 8.

Definition next_position (start_x start_y power angle time : R) : result (R * R) :=
  let velocity_x := cos angle * power in
  let velocity_y := sin angle * power in
  let distance_x := velocity_x * time in
  square <- pow2 time ;;
  let distance_y := velocity_y * time - 4.9 * square in
  let next_x := start_x + distance_x in
  let next_y := start_y - distance_y in
  Ok (next_x, next_y).

End Checked.

(** ** Process state of the frame loop *)

Record globals : Set := mkGlobals {
  ball : Ball.t;
  shooting : bool;
  start_x : R;
  start_y : R;
  time : R;
  power : R;
  angle : R
}.

Definition initial : globals :=
  mkGlobals (Ball.mk START_X START_Y RADIUS WHITE) false 0 0 0 0 0.

Definition draw_line (b : Ball.t) (shooting : bool) (mouse : pixel) : list draw_cmd :=
  if negb shooting
  then [ DrawLine WHITE (Ball.x b, Ball.y b) mouse ]
  else [].

Definition draw_window (b : Ball.t) (shooting : bool) (mouse : pixel) : list draw_cmd :=
  [ Fill GRAY ] ++ Ball.draw b ++ draw_line b shooting mouse ++ [ DisplayUpdate ].

(** "Move the ball (Or stop it) if shooting": the first block of the loop body. *)
Definition move (g : globals) : globals :=
  if shooting g then
    if leb (Ball.y (ball g)) (HEIGHT - Ball.radius (ball g)) then
      let time := time g + 0.05 in
      let position :=
        Ball.next_position (start_x g) (start_y g) (power g) (angle g) time in
      mkGlobals (Ball.set_y (Ball.set_x (ball g) (fst position)) (snd position))
                true (start_x g) (start_y g) time (power g) (angle g)
    else
      mkGlobals (Ball.set_y (ball g) START_Y)
                false (start_x g) (start_y g) (time g) (power g) (angle g)
  else g.

(** The events the loop looks at.  [MOUSEBUTTONDOWN] carries what
    [pygame.mouse.get_pos()] answers when the event is handled. *)
Inductive event : Set :=
| QUIT
| MOUSEBUTTONDOWN (mouse : pixel)
| OtherEvent.

Definition on_event (e : event) (g : globals) : result globals :=
  match e with
  | QUIT => Raise SystemExit
  | MOUSEBUTTONDOWN mouse =>
      if negb (shooting g) then
        let l : line := ((Ball.x (ball g), Ball.y (ball g)), of_pixel mouse) in
        power <- get_power l ;;
        angle <- get_angle l ;;
        Ok (mkGlobals (ball g) true (Ball.x (ball g)) (Ball.y (ball g)) 0 power angle)
      else Ok g
  | OtherEvent => Ok g
  end.

Fixpoint handle_events (events : list event) (g : globals) : result globals :=
  match events with
  | [] => Ok g
  | e :: rest => g' <- on_event e g ;; handle_events rest g'
  end.

(** What one pass of the loop body reads from the backend: the pointer
    position at drawing time and the pending events. *)
Abbreviation input := ((Z * Z) * list event)%type (only parsing).

(** One pass of [while True]: the frame drawn, and the state at the top of
    the next pass (or the exception that ends the process). *)
Definition iteration (i : input) (g : globals) : list draw_cmd * result globals :=
  let g1 := move g in
  (draw_window (ball g1) (shooting g1) (fst i), handle_events (snd i) g1).

Fixpoint run (inputs : list input) (g : globals) : result globals :=
  match inputs with
  | [] => Ok g
  | i :: rest => g' <- snd (iteration i g) ;; run rest g'
  end.

(** The ball as a frame shows it: the centre of the filled circle. *)
Definition shown_ball (frame : list draw_cmd) : option point :=
  match frame with
  | _ :: Circle _ center _ :: _ => Some center
  | _ => None
  end.

(** ** The states of the loop, in the words of the specification *)

Definition position (g : globals) : point := (Ball.x (ball g), Ball.y (ball g)).

Definition launch_pad : point := (600, 489).

(** The raw angle: the arctangent of Δy/Δx, or π/2 on a vertical segment. *)
Definition raw_angle (dx dy : R) : R :=
  if Req_dec_T dx 0 then PI / 2 else atan (dy / dx).

Definition valid_launch (g : globals) : Prop :=
  0 <= power g /\ (0 <= angle g < 2 * PI) /\ 0 <= time g.

(** The quadrant adjustment of [get_angle], applied to the raw angle [a]. *)
Definition adjust (x y mouse_x mouse_y a : R) : R :=
  if ltb x mouse_x && gtb y mouse_y then Rabs a
  else if gtb x mouse_x && gtb y mouse_y then PI - a
  else if gtb x mouse_x && ltb y mouse_y then PI + Rabs a
  else if ltb x mouse_x && ltb y mouse_y then 2 * PI - a
  else a.

(** The state of a flight launched with the parameters of [g], at elapsed
    time [t]: what the airborne branch of [move] writes. *)
Definition in_flight (g : globals) (t : R) : globals :=
  let position :=
    Ball.next_position (start_x g) (start_y g) (power g) (angle g) t in
  mkGlobals (Ball.set_y (Ball.set_x (ball g) (fst position)) (snd position))
            true (start_x g) (start_y g) t (power g) (angle g).

(** The state right after a press handled while idle, with launch
    parameters [p] and [a]. *)
Definition launched (g : globals) (p a : R) : globals :=
  mkGlobals (ball g) true (Ball.x (ball g)) (Ball.y (ball g)) 0 p a.

Definition no_quit (inputs : list input) : Prop :=
  forall i, In i inputs -> ~ In QUIT (snd i).

(** A concrete session: a press with the pointer 100 pixels to the right of
    the resting ball, then ten passes without events. *)
Definition shot_right : list input :=
  ((700, 489)%Z, [ MOUSEBUTTONDOWN (700, 489)%Z ]) :: repeat ((700, 489)%Z, []) 10.

(** The two observable situations of the specification's invariant. *)
Definition idle_at_pad (g : globals) : Prop :=
  shooting g = false /\ position g = launch_pad /\ position (move g) = position g.

Definition airborne_valid (g : globals) : Prop :=
  shooting g = true /\ valid_launch g.

(** Idle as the loop has it: at rest on the ground, at whatever x. *)
Definition idle_on_ground (g : globals) : Prop :=
  shooting g = false /\ Ball.y (ball g) = 489 /\ position (move g) = position g.

Definition no_press (inputs : list input) : Prop :=
  forall i mouse, In i inputs -> ~ In (MOUSEBUTTONDOWN mouse) (snd i).

(** What every pass of the loop preserves. *)
Definition loop_invariant (g : globals) : Prop :=
  (shooting g = false -> Ball.y (ball g) = 489) /\
  (shooting g = true -> valid_launch g).

(** What the passes keep about the ball and the flight: the ball keeps its
    radius and colour, rests at y = 489 while idle, and while shooting is on
    the parabola of a launch from the ground, a whole number of steps in. *)
Definition flight_invariant (g : globals) : Prop :=
  Ball.radius (ball g) = RADIUS /\
  Ball.color (ball g) = WHITE /\
  (shooting g = false -> Ball.y (ball g) = 489) /\
  (shooting g = true ->
   start_y g = 489 /\
   position g =
     Ball.next_position (start_x g) (start_y g) (power g) (angle g) (time g) /\
   exists k : nat, time g = 0.05 * INR k).

(** The parabola of the stored launch parameters. *)
Definition flight_x (g : globals) (t : R) : R :=
  fst (Ball.next_position (start_x g) (start_y g) (power g) (angle g) t).

Definition flight_y (g : globals) (t : R) : R :=
  snd (Ball.next_position (start_x g) (start_y g) (power g) (angle g) t).

(** The stored flight is [k] ticks old and was on or above the ground line
    at every earlier tick. *)
Definition ticks_above_ground (g : globals) (k : nat) : Prop :=
  time g = 0.05 * INR k /\
  forall j, (j < k)%nat -> flight_y g (0.05 * INR j) <= HEIGHT - RADIUS.

(** The ball rests where the stored flight ended: on the ground, at the x
    the parabola had at the first tick at which it was below the ground
    line, which is the stored elapsed time. *)
Definition rests_where_flight_ended (g : globals) : Prop :=
  exists k,
    ticks_above_ground g k /\
    HEIGHT - RADIUS < flight_y g (time g) /\
    position g = (flight_x g (time g), 489).

(** Some pass of the session has a press among its events. *)
Definition has_press (inputs : list input) : Prop :=
  exists i mouse, In i inputs /\ In (MOUSEBUTTONDOWN mouse) (snd i).

(** The invariant of a session, with the history of the flight: while
    shooting the flight never was below the ground line at an earlier tick
    and its vertical velocity is a whole number of eighths (the pointer is
    at integer pixels, the ball was launched from y = 489); while idle the
    state is the initial one or the ball rests where the last flight ended. *)
Definition session_invariant (g : globals) : Prop :=
  flight_invariant g /\
  (shooting g = true ->
   (exists k, ticks_above_ground g k) /\
   exists m : Z, sin (angle g) * power g = IZR m / 8) /\
  (shooting g = false -> g = initial \/ rests_where_flight_ended g).

(** Operands whose square is certainly within the range of float, operands
    whose square is certainly beyond it, and a bound under which a coordinate
    difference is itself a finite float. *)
Definition SAFE_OPERAND : R := IZR (10 ^ 153).
Definition HUGE_OPERAND : R := IZR (10 ^ 155).
Definition FINITE_OPERAND : R := IZR (10 ^ 300).

(** * Properties *)

(** Settles the comparisons of the quadrant test from the context. *)
Ltac decide_cmp :=
  unfold adjust, gtb, ltb;
  repeat match goal with
         | |- context [Rlt_dec ?a ?b] => destruct (Rlt_dec a b); try lra
         end;
  cbn [andb].

(** C1: [next_position] returns exactly
    (start_x + power·cos(angle)·time,
     start_y − (power·sin(angle)·time − 4.9·time²)). *)
Theorem next_position_formula (start_x start_y power angle time : R) :
  Ball.next_position start_x start_y power angle time =
  (start_x + power * cos angle * time,
   start_y - (power * sin angle * time - 4.9 * (time * time))).
Proof.
  unfold Ball.next_position. f_equal; ring.
Qed.

(** ** The primitives *)

Lemma ltb_true (a b : R) : ltb a b = true <-> a < b.
Proof.
  unfold ltb. destruct (Rlt_dec a b); split; intros; try easy.
Qed.

Lemma ltb_false (a b : R) : ltb a b = false <-> b <= a.
Proof.
  unfold ltb. destruct (Rlt_dec a b); split; intros; try easy; lra.
Qed.

Lemma leb_true (a b : R) : leb a b = true <-> a <= b.
Proof.
  unfold leb. destruct (Rle_dec a b); split; intros; try easy.
Qed.

Lemma leb_false (a b : R) : leb a b = false <-> b < a.
Proof.
  unfold leb. destruct (Rle_dec a b); split; intros; try easy; lra.
Qed.

Lemma neb_true (a b : R) : neb a b = true <-> a <> b.
Proof.
  unfold neb. destruct (Req_dec_T a b); split; intros; try easy.
Qed.

Lemma neb_false (a b : R) : neb a b = false <-> a = b.
Proof.
  unfold neb. destruct (Req_dec_T a b); split; intros; try easy.
Qed.

Lemma truediv_ok (a b : R) : b <> 0 -> truediv a b = Ok (a / b).
Proof.
  intros Hb. unfold truediv. destruct (Req_dec_T b 0); [contradiction | reflexivity].
Qed.

Lemma sqrt_ok (a : R) : 0 <= a -> Py.sqrt a = Ok (R_sqrt.sqrt a).
Proof.
  intros Ha. unfold Py.sqrt. destruct (Rlt_dec a 0); [lra | reflexivity].
Qed.

Lemma sum_squares_nonneg (a b : R) : 0 <= a ^ 2 + b ^ 2.
Proof.
  pose proof (pow2_ge_0 a). pose proof (pow2_ge_0 b). lra.
Qed.

(** ** [get_power] and [get_angle] as plain real functions *)

Lemma get_power_ok (x y mouse_x mouse_y : R) :
  get_power ((x, y), (mouse_x, mouse_y)) =
  Ok (R_sqrt.sqrt ((mouse_y - y) ^ 2 + (mouse_x - x) ^ 2) / 8).
Proof.
  unfold get_power; cbn [fst snd].
  rewrite sqrt_ok by apply sum_squares_nonneg.
  cbn [bind]. apply truediv_ok. lra.
Qed.

Lemma get_angle_ok (x y mouse_x mouse_y : R) :
  get_angle ((x, y), (mouse_x, mouse_y)) =
  Ok (adjust x y mouse_x mouse_y (raw_angle (mouse_x - x) (mouse_y - y))).
Proof.
  unfold get_angle, raw_angle, adjust; cbn [fst snd].
  destruct (Req_dec_T (mouse_x - x) 0) as [E | N].
  - assert (Hn : neb mouse_x x = false) by (apply neb_false; lra).
    rewrite Hn. reflexivity.
  - assert (Hn : neb mouse_x x = true) by (apply neb_true; lra).
    rewrite Hn, truediv_ok by assumption. reflexivity.
Qed.

(** C5: [get_angle] takes the raw angle (the arctangent of Δy/Δx, or π/2
    when Δx = 0) and adjusts it by screen quadrant: right and above gives
    |raw|, left and above π − raw, left and below π + |raw|, right and below
    2π − raw; on a vertical segment the answer is π/2 whatever the sign of Δy. *)
Theorem get_angle_quadrants (x y mouse_x mouse_y : R) :
  let raw := raw_angle (mouse_x - x) (mouse_y - y) in
  let answer := get_angle ((x, y), (mouse_x, mouse_y)) in
  (x < mouse_x -> mouse_y < y -> answer = Ok (Rabs raw)) /\
  (mouse_x < x -> mouse_y < y -> answer = Ok (PI - raw)) /\
  (mouse_x < x -> y < mouse_y -> answer = Ok (PI + Rabs raw)) /\
  (x < mouse_x -> y < mouse_y -> answer = Ok (2 * PI - raw)) /\
  (mouse_x = x -> answer = Ok (PI / 2)).
Proof.
  intros raw answer. subst answer. rewrite get_angle_ok. fold raw.
  repeat split; intros; f_equal.
  1-4: decide_cmp; reflexivity.
  subst raw. unfold raw_angle.
  destruct (Req_dec_T (mouse_x - x) 0); [| lra].
  decide_cmp; reflexivity.
Qed.

Lemma get_angle_quadrants_witness :
  get_angle ((0, 0), (1, -1)) = Ok (Rabs (raw_angle (1 - 0) (-1 - 0))) /\
  get_angle ((0, 0), (-1, -1)) = Ok (PI - raw_angle (-1 - 0) (-1 - 0)) /\
  get_angle ((0, 0), (-1, 1)) = Ok (PI + Rabs (raw_angle (-1 - 0) (1 - 0))) /\
  get_angle ((0, 0), (1, 1)) = Ok (2 * PI - raw_angle (1 - 0) (1 - 0)) /\
  get_angle ((0, 0), (0, 1)) = Ok (PI / 2) /\
  get_angle ((0, 0), (0, -1)) = Ok (PI / 2).
Proof.
  split; [apply (get_angle_quadrants 0 0 1 (-1)); lra |].
  split; [apply (get_angle_quadrants 0 0 (-1) (-1)); lra |].
  split; [apply (get_angle_quadrants 0 0 (-1) 1); lra |].
  split; [apply (get_angle_quadrants 0 0 1 1); lra |].
  split; [apply (get_angle_quadrants 0 0 0 1); lra |].
  apply (get_angle_quadrants 0 0 0 (-1)); lra.
Defined.

(** C6: [get_power] is the Euclidean distance between the two endpoints
    divided by 8, and it is 0 exactly when the two endpoints coincide. *)
Theorem get_power_distance (x y mouse_x mouse_y : R) :
  let dx := mouse_x - x in
  let dy := mouse_y - y in
  get_power ((x, y), (mouse_x, mouse_y)) = Ok (R_sqrt.sqrt (dx * dx + dy * dy) / 8) /\
  (get_power ((x, y), (mouse_x, mouse_y)) = Ok 0 <-> (x, y) = (mouse_x, mouse_y)).
Proof.
  intros dx dy. rewrite get_power_ok.
  replace ((mouse_y - y) ^ 2 + (mouse_x - x) ^ 2) with (dx * dx + dy * dy)
    by (subst dx dy; ring).
  split; [reflexivity |]. split.
  - intros H. injection H as H.
    assert (Hs : R_sqrt.sqrt (dx * dx + dy * dy) = 0) by lra.
    apply sqrt_eq_0 in Hs; [| nra].
    assert (dx = 0) by nra. assert (dy = 0) by nra.
    subst dx dy. f_equal; lra.
  - intros H. injection H as Hx Hy.
    replace (dx * dx + dy * dy) with 0 by (subst dx dy; subst; ring).
    rewrite sqrt_0. f_equal. lra.
Qed.

Lemma raw_angle_horizontal (dx : R) : dx <> 0 -> raw_angle dx 0 = 0.
Proof.
  intros Hdx. unfold raw_angle. destruct (Req_dec_T dx 0); [contradiction |].
  replace (0 / dx) with 0 by (field; assumption). apply atan_0.
Qed.

Lemma raw_angle_vertical (dy : R) : raw_angle 0 dy = PI / 2.
Proof.
  unfold raw_angle. destruct (Req_dec_T 0 0); [reflexivity | lra].
Qed.

Lemma get_angle_horizontal (x y mouse_x : R) :
  mouse_x <> x -> get_angle ((x, y), (mouse_x, y)) = Ok 0.
Proof.
  intros Hx. rewrite get_angle_ok.
  replace (y - y) with 0 by ring.
  rewrite raw_angle_horizontal by lra. decide_cmp; reflexivity.
Qed.

Lemma get_angle_vertical (x y mouse_y : R) :
  get_angle ((x, y), (x, mouse_y)) = Ok (PI / 2).
Proof.
  rewrite get_angle_ok.
  replace (x - x) with 0 by ring.
  rewrite raw_angle_vertical. decide_cmp; reflexivity.
Qed.

(** The shot of the end-to-end scenario: from the launch pad towards
    (700, 389), up and to the right at 45 degrees. *)
Example get_angle_upper_right :
  get_angle ((600, 489), (700, 389)) = Ok (PI / 4).
Proof.
  rewrite get_angle_ok. unfold raw_angle.
  destruct (Req_dec_T (700 - 600) 0) as [E | _]; [lra |].
  replace ((389 - 489) / (700 - 600)) with (Ropp 1) by field.
  rewrite atan_opp, atan_1.
  pose proof PI_RGT_0.
  decide_cmp. rewrite Rabs_left by lra. f_equal. lra.
Qed.

Lemma PI_gt_3 : 3 < PI.
Proof. pose proof PI2_3_2. lra. Qed.

(** C4: on the drags along the axes, [get_angle] answers 0 for a drag
    directly right and π/2 for a drag directly up, but for a drag directly
    left it answers 0 as well, more than 3 radians away from π. *)
Theorem get_angle_axis_drags (x y : R) :
  get_angle ((x, y), (x + 10, y)) = Ok 0 /\
  get_angle ((x, y), (x, y - 10)) = Ok (PI / 2) /\
  get_angle ((x, y), (x - 10, y)) = Ok 0 /\
  3 < Rabs (0 - PI).
Proof.
  repeat split.
  - apply get_angle_horizontal. lra.
  - apply get_angle_vertical.
  - apply get_angle_horizontal. lra.
  - pose proof PI_gt_3. rewrite Rabs_left by lra. lra.
Qed.

(** ** Kinematics *)

(** C8: for every launch there is a time T ≥ 0 from which the y coordinate
    of [next_position] is strictly increasing in time: the ball eventually
    falls (on screen, y grows downwards). *)
Theorem eventually_falls (start_x start_y power angle : R) :
  exists T, 0 <= T /\
    forall t1 t2, T <= t1 -> t1 < t2 ->
      snd (Ball.next_position start_x start_y power angle t1) <
      snd (Ball.next_position start_x start_y power angle t2).
Proof.
  exists (Rmax 0 (sin angle * power / 9.8)). split; [apply Rmax_l |].
  intros t1 t2 H1 H2. unfold Ball.next_position; cbn [snd].
  pose proof (Rmax_l 0 (sin angle * power / 9.8)) as H0.
  pose proof (Rmax_r 0 (sin angle * power / 9.8)) as Hv.
  set (v := sin angle * power) in *.
  assert (Hv1 : v <= 9.8 * t1) by lra.
  nra.
Qed.

Lemma eventually_falls_witness :
  exists T, 0 <= T /\
    forall t1 t2, T <= t1 -> t1 < t2 ->
      snd (Ball.next_position 600 489 12.5 (PI / 4) t1) <
      snd (Ball.next_position 600 489 12.5 (PI / 4) t2).
Proof.
  exact (eventually_falls 600 489 12.5 (PI / 4)).
Defined.

(** ** The press *)

Lemma press_idle (g : globals) (mouse : pixel) :
  shooting g = false ->
  exists p a,
    get_power (position g, of_pixel mouse) = Ok p /\
    get_angle (position g, of_pixel mouse) = Ok a /\
    on_event (MOUSEBUTTONDOWN mouse) g = Ok (launched g p a).
Proof.
  intros Hs. unfold on_event, position, of_pixel. rewrite Hs. cbn [negb]. cbv zeta.
  rewrite get_power_ok, get_angle_ok. cbn [bind].
  eexists _, _. split; [reflexivity |]. split; reflexivity.
Qed.

(** C9: a press is only acted upon while idle.  While shooting it leaves the
    whole state (flag, start position, power, angle, elapsed time, ball) as it
    is; while idle it takes the segment from the ball to the pointer, derives
    power and angle from it, resets the elapsed time to 0, records the ball
    position as the start and sets shooting, without moving the ball. *)
Theorem press_only_while_idle (g : globals) (mouse : pixel) :
  (shooting g = true -> on_event (MOUSEBUTTONDOWN mouse) g = Ok g) /\
  (shooting g = false ->
   exists g' p a,
     on_event (MOUSEBUTTONDOWN mouse) g = Ok g' /\
     get_power ((Ball.x (ball g), Ball.y (ball g)), of_pixel mouse) = Ok p /\
     get_angle ((Ball.x (ball g), Ball.y (ball g)), of_pixel mouse) = Ok a /\
     shooting g' = true /\
     start_x g' = Ball.x (ball g) /\ start_y g' = Ball.y (ball g) /\
     power g' = p /\ angle g' = a /\ time g' = 0 /\
     ball g' = ball g).
Proof.
  split; intros Hs.
  - unfold on_event. rewrite Hs. reflexivity.
  - destruct (press_idle g mouse Hs) as (p & a & Hp & Ha & Hev).
    exists (launched g p a), p, a. repeat split; assumption.
Qed.

Lemma press_only_while_idle_witness :
  on_event (MOUSEBUTTONDOWN (700, 389)%Z) (in_flight initial 1) = Ok (in_flight initial 1) /\
  exists g' p a,
    on_event (MOUSEBUTTONDOWN (700, 389)%Z) initial = Ok g' /\
    get_power ((Ball.x (ball initial), Ball.y (ball initial)), of_pixel (700, 389)%Z) = Ok p /\
    get_angle ((Ball.x (ball initial), Ball.y (ball initial)), of_pixel (700, 389)%Z) = Ok a /\
    shooting g' = true /\
    start_x g' = Ball.x (ball initial) /\ start_y g' = Ball.y (ball initial) /\
    power g' = p /\ angle g' = a /\ time g' = 0 /\
    ball g' = ball initial.
Proof.
  split.
  - apply (press_only_while_idle (in_flight initial 1) (700, 389)%Z). reflexivity.
  - apply (press_only_while_idle initial (700, 389)%Z). reflexivity.
Defined.

(** ** One pass of the loop *)

Lemma move_idle (g : globals) : shooting g = false -> move g = g.
Proof. intros Hs. unfold move. rewrite Hs. reflexivity. Qed.

Lemma move_airborne (g : globals) :
  shooting g = true ->
  Ball.y (ball g) <= HEIGHT - Ball.radius (ball g) ->
  move g = in_flight g (time g + 0.05).
Proof.
  intros Hs Hy. unfold move. rewrite Hs.
  apply leb_true in Hy. rewrite Hy. reflexivity.
Qed.

Lemma move_landing (g : globals) :
  shooting g = true ->
  HEIGHT - Ball.radius (ball g) < Ball.y (ball g) ->
  move g = mkGlobals (Ball.set_y (ball g) START_Y) false
                     (start_x g) (start_y g) (time g) (power g) (angle g).
Proof.
  intros Hs Hy. unfold move. rewrite Hs.
  apply leb_false in Hy. rewrite Hy. reflexivity.
Qed.

Lemma START_Y_489 : START_Y = 489.
Proof. unfold START_Y, HEIGHT, RADIUS. lra. Qed.

Lemma START_X_600 : START_X = 600.
Proof. unfold START_X, WIDTH. lra. Qed.

Lemma handle_events_shooting (events : list event) (g : globals) :
  shooting g = true -> ~ In QUIT events -> handle_events events g = Ok g.
Proof.
  intros Hs. induction events as [| e rest IH]; intros Hq; [reflexivity |].
  cbn [handle_events]. destruct e.
  - exfalso. apply Hq. left. reflexivity.
  - cbn [on_event]. rewrite Hs. cbn [negb bind]. apply IH.
    intros Hin. apply Hq. right. assumption.
  - cbn [on_event bind]. apply IH.
    intros Hin. apply Hq. right. assumption.
Qed.

Lemma no_quit_cons (i : input) (rest : list input) :
  no_quit (i :: rest) -> ~ In QUIT (snd i) /\ no_quit rest.
Proof.
  intros H. split.
  - apply H. left. reflexivity.
  - intros j Hj. apply H. right. assumption.
Qed.

Lemma in_flight_time (g : globals) (t t' : R) :
  t = t' -> in_flight g t = in_flight g t'.
Proof. intros ->. reflexivity. Qed.

(** A launched state is the flight at elapsed time 0. *)
Lemma launched_in_flight (g : globals) (p a : R) :
  launched g p a = in_flight (launched g p a) 0.
Proof.
  unfold launched, in_flight, Ball.next_position, Ball.set_x, Ball.set_y.
  destruct g as [[bx by_ r c] s sx sy t p0 a0]; cbn.
  f_equal. f_equal; ring.
Qed.

(** The passes of a flight: as long as the parabola stays on or above the
    ground line at the top of each pass and nobody quits, [n] passes take the
    flight from elapsed time [t] to [t + 0.05·n]. *)
Lemma run_flight (inputs : list input) :
  forall (g : globals) (t : R),
    no_quit inputs ->
    (forall k, (k < length inputs)%nat ->
       snd (Ball.next_position (start_x g) (start_y g) (power g) (angle g)
                               (t + 0.05 * INR k))
       <= HEIGHT - Ball.radius (ball g)) ->
    run inputs (in_flight g t) = Ok (in_flight g (t + 0.05 * INR (length inputs))).
Proof.
  induction inputs as [| i rest IH]; intros g t Hq Hy.
  - cbn. f_equal. apply in_flight_time. lra.
  - apply no_quit_cons in Hq. destruct Hq as [Hi Hq].
    assert (Hm : move (in_flight g t) = in_flight g (t + 0.05)).
    { rewrite move_airborne; [reflexivity | reflexivity |].
      specialize (Hy 0%nat). cbn [length INR] in Hy.
      replace (t + 0.05 * 0) with t in Hy by lra.
      apply Hy. lia. }
    cbn [run iteration snd]. rewrite Hm.
    rewrite handle_events_shooting by (reflexivity || assumption).
    cbn [bind]. rewrite IH; [| assumption |].
    + f_equal. apply in_flight_time. cbn [length]. rewrite S_INR. lra.
    + intros k Hk. specialize (Hy (S k)). rewrite S_INR in Hy.
      replace (t + 0.05 + 0.05 * INR k) with (t + 0.05 * (INR k + 1)) by lra.
      apply Hy. cbn [length]. lia.
Qed.

(** ** A concrete flight *)

Lemma press_right :
  on_event (MOUSEBUTTONDOWN (700, 489)%Z) initial = Ok (launched initial 12.5 0).
Proof.
  unfold on_event, initial, launched, of_pixel; cbn [shooting negb ball Ball.x Ball.y fst snd].
  rewrite START_X_600, START_Y_489.
  rewrite get_power_ok, get_angle_horizontal by lra. cbn [bind].
  replace ((489 - 489) ^ 2 + (700 - 600) ^ 2) with (100 ^ 2) by ring.
  rewrite sqrt_pow2 by lra.
  do 2 f_equal. lra.
Qed.

Lemma firstn_repeat_le {A : Type} (a : A) :
  forall k n, (k <= n)%nat -> firstn k (repeat a n) = repeat a k.
Proof.
  induction k as [| k IH]; intros n Hk; [reflexivity |].
  destruct n as [| n]; [lia |].
  cbn [repeat firstn]. f_equal. apply IH. lia.
Qed.

(** Up to ten passes after the press of [shot_right], the ball is in flight. *)
Lemma run_right_flight (n : nat) :
  (n <= 10)%nat ->
  run (repeat ((700, 489)%Z, []) n) (launched initial 12.5 0) =
  Ok (in_flight (launched initial 12.5 0) (0.05 * INR n)).
Proof.
  intros Hn.
  pose proof (run_flight (repeat ((700, 489)%Z, []) n) (launched initial 12.5 0) 0) as H.
  rewrite <- launched_in_flight in H. rewrite H.
  - f_equal. apply in_flight_time. rewrite repeat_length. lra.
  - intros i Hi. apply repeat_spec in Hi. subst i. cbn. tauto.
  - rewrite repeat_length. intros k Hk.
    assert (Hk9 : INR k <= INR 9) by (apply le_INR; lia).
    pose proof (pos_INR k) as Hk0.
    cbn [INR] in Hk9.
    unfold Ball.next_position, launched, initial;
      cbn [snd start_x start_y power angle ball Ball.radius Ball.y].
    rewrite sin_0, START_Y_489. unfold HEIGHT, RADIUS.
    set (m := INR k) in *. clearbody m.
    assert (m * m <= 81) by nra.
    nra.
Qed.

Lemma run_shot_right :
  run shot_right initial = Ok (in_flight (launched initial 12.5 0) 0.5).
Proof.
  unfold shot_right. cbn [run iteration snd].
  rewrite move_idle by reflexivity.
  cbn [handle_events]. rewrite press_right. cbn [bind].
  rewrite run_right_flight by lia.
  f_equal. apply in_flight_time. cbn [INR]. lra.
Qed.

Lemma flight_end_position :
  position (in_flight (launched initial 12.5 0) 0.5) = (606.25, 490.225).
Proof.
  unfold position, in_flight, launched, initial, Ball.next_position;
    cbn [ball Ball.x Ball.y Ball.set_x Ball.set_y start_x start_y power angle fst snd].
  rewrite sin_0, cos_0, START_X_600, START_Y_489. f_equal; lra.
Qed.

(** ** Flight *)

(** [run_flight] again, with the condition read off the states the passes go
    through rather than off the parabola. *)
Lemma run_flight_observed (inputs : list input) :
  forall (g : globals) (t : R),
    no_quit inputs ->
    (forall k gk, (k < length inputs)%nat ->
       run (firstn k inputs) (in_flight g t) = Ok gk ->
       Ball.y (ball gk) <= HEIGHT - Ball.radius (ball gk)) ->
    run inputs (in_flight g t) = Ok (in_flight g (t + 0.05 * INR (length inputs))).
Proof.
  induction inputs as [| i rest IH]; intros g t Hq Hy.
  - cbn. f_equal. apply in_flight_time. lra.
  - apply no_quit_cons in Hq. destruct Hq as [Hi Hq].
    assert (Hm : move (in_flight g t) = in_flight g (t + 0.05)).
    { rewrite move_airborne; [reflexivity | reflexivity |].
      apply (Hy 0%nat); [cbn [length]; lia | reflexivity]. }
    assert (Hstep : forall tl, run (i :: tl) (in_flight g t) = run tl (in_flight g (t + 0.05))).
    { intros tl. cbn [run iteration snd]. rewrite Hm.
      rewrite handle_events_shooting by (reflexivity || assumption).
      reflexivity. }
    rewrite Hstep, IH; [| assumption |].
    + f_equal. apply in_flight_time. cbn [length]. rewrite S_INR. lra.
    + intros k gk Hk Hrun. apply (Hy (S k)); [cbn [length]; lia |].
      cbn [firstn]. rewrite Hstep. assumption.
Qed.

(** C7: while airborne, a tick adds exactly 0.05 to the elapsed time and puts
    the ball at [next_position] of the launch parameters and the new elapsed
    time, leaving the launch parameters alone; so after [n] consecutive
    airborne ticks following a launch the elapsed time is 0.05·n and the ball
    is at [next_position start_x start_y power angle (0.05·n)], where the
    start is the ball's position at the press. *)
Theorem airborne_ticks :
  (forall s : globals,
     shooting s = true ->
     Ball.y (ball s) <= HEIGHT - Ball.radius (ball s) ->
     time (move s) = time s + 0.05 /\
     position (move s) =
       Ball.next_position (start_x s) (start_y s) (power s) (angle s) (time s + 0.05) /\
     shooting (move s) = true /\
     (start_x (move s), start_y (move s), power (move s), angle (move s)) =
       (start_x s, start_y s, power s, angle s)) /\
  (forall (g0 g : globals) (mouse : pixel) (inputs : list input),
     shooting g0 = false ->
     on_event (MOUSEBUTTONDOWN mouse) g0 = Ok g ->
     no_quit inputs ->
     (forall k gk, (k < length inputs)%nat ->
        run (firstn k inputs) g = Ok gk ->
        Ball.y (ball gk) <= HEIGHT - Ball.radius (ball gk)) ->
     exists g',
       run inputs g = Ok g' /\
       shooting g' = true /\
       time g' = 0.05 * INR (length inputs) /\
       position g' =
         Ball.next_position (start_x g) (start_y g) (power g) (angle g)
                            (0.05 * INR (length inputs)) /\
       (start_x g, start_y g) = position g0 /\
       (start_x g', start_y g', power g', angle g') =
         (start_x g, start_y g, power g, angle g)).
Proof.
  split.
  - intros s Hs Hy. rewrite (move_airborne s Hs Hy).
    repeat split; destruct (Ball.next_position _ _ _ _ _); reflexivity.
  - intros g0 g mouse inputs Hidle Hpress Hq Hy.
    destruct (press_idle g0 mouse Hidle) as (p & a & _ & _ & Hev).
    rewrite Hev in Hpress. injection Hpress as <-.
    rewrite (launched_in_flight g0 p a) in Hy.
    pose proof (run_flight_observed inputs (launched g0 p a) 0 Hq Hy) as Hrun.
    rewrite <- launched_in_flight in Hrun.
    replace (0 + 0.05 * INR (length inputs)) with (0.05 * INR (length inputs)) in Hrun by lra.
    eexists. split; [exact Hrun |].
    unfold position. cbn.
    repeat split; destruct (Ball.next_position _ _ _ _ _); reflexivity.
Qed.

Lemma airborne_ticks_witness :
  (let s := launched initial 12.5 0 in
   time (move s) = time s + 0.05 /\
   position (move s) =
     Ball.next_position (start_x s) (start_y s) (power s) (angle s) (time s + 0.05) /\
   shooting (move s) = true /\
   (start_x (move s), start_y (move s), power (move s), angle (move s)) =
     (start_x s, start_y s, power s, angle s)) /\
  exists g',
    run (repeat ((700, 489)%Z, []) 10) (launched initial 12.5 0) = Ok g' /\
    shooting g' = true /\
    time g' = 0.05 * INR 10 /\
    position g' = Ball.next_position START_X START_Y 12.5 0 (0.05 * INR 10) /\
    (START_X, START_Y) = position initial /\
    (start_x g', start_y g', power g', angle g') = (START_X, START_Y, 12.5, 0).
Proof.
  split.
  { apply (proj1 airborne_ticks (launched initial 12.5 0)).
    - reflexivity.
    - cbn. unfold START_Y, HEIGHT, RADIUS. lra. }
  apply (proj2 airborne_ticks initial (launched initial 12.5 0) (700, 489)%Z
               (repeat ((700, 489)%Z, []) 10)).
  - reflexivity.
  - apply press_right.
  - intros i Hi. apply repeat_spec in Hi. subst i. cbn. tauto.
  - rewrite repeat_length. intros k gk Hk Hrun.
    rewrite firstn_repeat_le, run_right_flight in Hrun by lia.
    injection Hrun as <-.
    assert (Hk9 : INR k <= INR 9) by (apply le_INR; lia).
    pose proof (pos_INR k) as Hk0.
    cbn [INR] in Hk9.
    unfold in_flight, Ball.next_position, launched, initial;
      cbn [fst snd start_x start_y power angle ball Ball.radius Ball.y Ball.set_x Ball.set_y].
    rewrite sin_0, START_Y_489. unfold HEIGHT, RADIUS.
    set (m := INR k) in *. clearbody m.
    assert (m * m <= 81) by nra.
    nra.
Defined.

(** ** Valid launch parameters *)

Lemma get_power_nonneg (l : line) (p : R) : get_power l = Ok p -> 0 <= p.
Proof.
  destruct l as [[x y] [mx my]]. rewrite get_power_ok. intros H.
  assert (Hp : p = R_sqrt.sqrt ((my - y) ^ 2 + (mx - x) ^ 2) / 8) by congruence.
  pose proof (sqrt_pos ((my - y) ^ 2 + (mx - x) ^ 2)). lra.
Qed.

Lemma adjust_range (x y mouse_x mouse_y : R) :
  0 <= adjust x y mouse_x mouse_y (raw_angle (mouse_x - x) (mouse_y - y)) < 2 * PI.
Proof.
  pose proof PI_RGT_0 as Hpi.
  unfold raw_angle. destruct (Req_dec_T (mouse_x - x) 0) as [E | N].
  - decide_cmp; lra.
  - remember ((mouse_y - y) / (mouse_x - x)) as q eqn:Hq.
    destruct (atan_bound q) as [Hl Hu].
    pose proof (Rabs_pos (atan q)) as Ha0.
    assert (Ha1 : Rabs (atan q) < PI / 2) by (apply Rabs_def1; lra).
    assert (Hpos : x < mouse_x -> y < mouse_y -> 0 < atan q).
    { intros. rewrite <- atan_0. apply atan_increasing.
      subst q. apply Rdiv_lt_0_compat; lra. }
    assert (Hzero : mouse_y = y -> atan q = 0).
    { intros ->. subst q. replace ((y - y) / (mouse_x - x)) with 0 by (field; lra).
      apply atan_0. }
    decide_cmp;
      try (rewrite Hzero by lra);
      try (assert (0 < atan q) by (apply Hpos; lra));
      lra.
Qed.

Lemma get_angle_range (l : line) (a : R) : get_angle l = Ok a -> 0 <= a < 2 * PI.
Proof.
  destruct l as [[x y] [mx my]]. rewrite get_angle_ok. intros H. injection H as <-.
  apply adjust_range.
Qed.

(** ** The invariant of the loop *)

Lemma inv_initial : loop_invariant initial.
Proof.
  split; intros H; [apply START_Y_489 | discriminate H].
Qed.

Lemma inv_move (g : globals) : loop_invariant g -> loop_invariant (move g).
Proof.
  intros HI. unfold move.
  destruct (shooting g) eqn:Hs; [| exact HI].
  destruct HI as [_ Hair].
  destruct (leb _ _); split; cbn [shooting ball Ball.set_y Ball.y]; intros H;
    try discriminate H.
  - destruct (Hair Hs) as (Hp & Ha & Ht).
    unfold valid_launch; cbn [power angle time]. repeat split; lra.
  - apply START_Y_489.
Qed.

Lemma inv_on_event (e : event) (g g' : globals) :
  loop_invariant g -> on_event e g = Ok g' -> loop_invariant g'.
Proof.
  intros HI He. destruct e; cbn [on_event] in He.
  - discriminate He.
  - destruct (shooting g) eqn:Hs; cbn [negb] in He.
    + injection He as <-. assumption.
    + destruct (press_idle g mouse Hs) as (p & a & Hp & Ha & Hev).
      unfold on_event in Hev. rewrite Hs in Hev. cbn [negb] in Hev.
      rewrite Hev in He. injection He as <-.
      split; cbn [launched shooting]; intros H; [discriminate H |].
      unfold valid_launch, launched; cbn [power angle time].
      split; [apply (get_power_nonneg _ _ Hp) |].
      split; [apply (get_angle_range _ _ Ha) | lra].
  - injection He as <-. assumption.
Qed.

Lemma inv_handle_events (events : list event) :
  forall g g', loop_invariant g -> handle_events events g = Ok g' -> loop_invariant g'.
Proof.
  induction events as [| e rest IH]; intros g g' HI He; cbn [handle_events] in He.
  - injection He as <-. assumption.
  - destruct (on_event e g) as [g1 |] eqn:H1; [| discriminate He].
    cbn [bind] in He. apply (IH g1 g'); [| assumption].
    apply (inv_on_event e g g1); assumption.
Qed.

Lemma inv_run (inputs : list input) :
  forall g g', loop_invariant g -> run inputs g = Ok g' -> loop_invariant g'.
Proof.
  induction inputs as [| i rest IH]; intros g g' HI Hr; cbn [run] in Hr.
  - injection Hr as <-. assumption.
  - cbn [iteration snd] in Hr.
    destruct (handle_events (snd i) (move g)) as [g1 |] eqn:H1; [| discriminate Hr].
    cbn [bind] in Hr. apply (IH g1 g'); [| assumption].
    apply (inv_handle_events (snd i) (move g) g1); [apply inv_move |]; assumption.
Qed.

Lemma reachable_inv (inputs : list input) (g : globals) :
  run inputs initial = Ok g -> loop_invariant g.
Proof.
  intros Hr. apply (inv_run inputs initial g inv_initial Hr).
Qed.

Lemma run_app (l1 l2 : list input) :
  forall g, run (l1 ++ l2) g = (g' <- run l1 g ;; run l2 g').
Proof.
  induction l1 as [| i rest IH]; intros g; [reflexivity |].
  cbn [app run]. destruct (snd (iteration i g)) as [g1 |]; [apply IH | reflexivity].
Qed.

Lemma handle_events_no_press (events : list event) (g g' : globals) :
  (forall mouse, ~ In (MOUSEBUTTONDOWN mouse) events) ->
  handle_events events g = Ok g' -> g' = g.
Proof.
  induction events as [| e rest IH]; intros Hn He; cbn [handle_events] in He.
  - congruence.
  - destruct e; cbn [on_event bind] in He.
    + discriminate He.
    + exfalso. apply (Hn mouse). left. reflexivity.
    + apply IH; [| assumption]. intros m Hin. apply (Hn m). right. assumption.
Qed.

Lemma run_no_press (inputs : list input) (g : globals) :
  no_press inputs -> run inputs initial = Ok g -> g = initial.
Proof.
  induction inputs as [| i rest IH]; intros Hn Hr; cbn [run] in Hr.
  - congruence.
  - cbn [iteration snd] in Hr. rewrite move_idle in Hr by reflexivity.
    destruct (handle_events (snd i) initial) as [g1 |] eqn:H1; [| discriminate Hr].
    cbn [bind] in Hr.
    apply handle_events_no_press in H1.
    + subst g1. apply IH; [| assumption].
      intros j m Hj. apply Hn. right. assumption.
    + intros m. apply Hn. left. reflexivity.
Qed.

Lemma idle_at_pad_initial : idle_at_pad initial.
Proof.
  unfold idle_at_pad, position, launch_pad. rewrite move_idle by reflexivity.
  cbn. rewrite START_X_600, START_Y_489. repeat split.
Qed.

(** The pass after [shot_right] ends the flight. *)
Lemma run_shot_right_landed :
  run (shot_right ++ [ ((700, 489)%Z, []) ]) initial =
  Ok (mkGlobals (Ball.mk 606.25 489 RADIUS WHITE) false START_X START_Y 0.5 12.5 0).
Proof.
  rewrite run_app, run_shot_right. cbn [bind run iteration snd handle_events].
  pose proof flight_end_position as Hpos.
  set (g := in_flight (launched initial 12.5 0) 0.5) in *.
  assert (Hx : Ball.x (ball g) = 606.25) by exact (f_equal fst Hpos).
  assert (Hy : Ball.y (ball g) = 490.225) by exact (f_equal snd Hpos).
  rewrite move_landing;
    [| reflexivity | rewrite Hy; cbn; unfold HEIGHT, RADIUS; lra].
  unfold Ball.set_y. rewrite Hx. repeat f_equal. apply START_Y_489.
Qed.

(** C3, as stated, fails on the code.  After the session [shot_right] and
    one more pass the loop is at the top of a pass with shooting = false and
    the ball at (606.25, 489): neither of the two situations holds. *)
Lemma launch_pad_invariant_counterexample :
  let g := mkGlobals (Ball.mk 606.25 489 RADIUS WHITE) false START_X START_Y 0.5 12.5 0 in
  run (shot_right ++ [ ((700, 489)%Z, []) ]) initial = Ok g /\
  ~ idle_at_pad g /\ ~ airborne_valid g.
Proof.
  intros g. split; [apply run_shot_right_landed |]. split.
  - intros (_ & Hpos & _). unfold position, launch_pad in Hpos. cbn in Hpos.
    injection Hpos as Hx. lra.
  - intros (Hs & _). discriminate Hs.
Qed.

(** * Further properties of the gesture functions *)

(** X1: whatever the segment, the angle [get_angle] returns lies in
    [0, 2π). *)
Theorem get_angle_in_range (l : line) :
  exists a, get_angle l = Ok a /\ 0 <= a < 2 * PI.
Proof.
  destruct l as [[x y] [mx my]]. rewrite get_angle_ok.
  eexists. split; [reflexivity | apply adjust_range].
Qed.

Lemma raw_angle_sign (dx dy : R) :
  dx <> 0 ->
  - PI / 2 < raw_angle dx dy < PI / 2 /\
  (0 < dy / dx -> 0 < raw_angle dx dy) /\
  (dy / dx < 0 -> raw_angle dx dy < 0).
Proof.
  intros Hdx. unfold raw_angle. destruct (Req_dec_T dx 0); [contradiction |].
  split; [apply atan_bound |]. split; intros H.
  - rewrite <- atan_0. apply atan_increasing. assumption.
  - rewrite <- atan_0. apply atan_increasing. assumption.
Qed.

Lemma quotient_sign (dx dy : R) :
  dx <> 0 ->
  (0 < dx -> 0 < dy -> 0 < dy / dx) /\
  (dx < 0 -> dy < 0 -> 0 < dy / dx) /\
  (0 < dx -> dy < 0 -> dy / dx < 0) /\
  (dx < 0 -> 0 < dy -> dy / dx < 0).
Proof.
  intros Hdx. unfold Rdiv.
  repeat split; intros H1 H2.
  - pose proof (Rinv_0_lt_compat dx H1). nra.
  - pose proof (Rinv_lt_0_compat dx H1). nra.
  - pose proof (Rinv_0_lt_compat dx H1). nra.
  - pose proof (Rinv_lt_0_compat dx H1). nra.
Qed.

(** X2: in each open screen quadrant the angle lies in the matching
    quadrant of the trigonometric circle, counted anticlockwise from the
    +x axis with "up" on screen as positive: right and above (0, π/2), left
    and above (π/2, π), left and below (π, 3π/2), right and below
    (3π/2, 2π). *)
Theorem get_angle_quadrant_intervals (x y mouse_x mouse_y : R) :
  exists a, get_angle ((x, y), (mouse_x, mouse_y)) = Ok a /\
    (x < mouse_x -> mouse_y < y -> 0 < a < PI / 2) /\
    (mouse_x < x -> mouse_y < y -> PI / 2 < a < PI) /\
    (mouse_x < x -> y < mouse_y -> PI < a < 3 * PI / 2) /\
    (x < mouse_x -> y < mouse_y -> 3 * PI / 2 < a < 2 * PI).
Proof.
  rewrite get_angle_ok. eexists. split; [reflexivity |].
  pose proof PI_RGT_0 as Hpi.
  split; [| split; [| split]]; intros Hx Hy;
    (assert (Hdx : mouse_x - x <> 0) by lra);
    destruct (raw_angle_sign (mouse_x - x) (mouse_y - y) Hdx) as ((Hl & Hu) & Hpos & Hneg);
    destruct (quotient_sign (mouse_x - x) (mouse_y - y) Hdx) as (Q1 & Q2 & Q3 & Q4);
    try (assert (Hq : 0 < (mouse_y - y) / (mouse_x - x))
          by (first [apply Q1; lra | apply Q2; lra]); specialize (Hpos Hq));
    try (assert (Hq : (mouse_y - y) / (mouse_x - x) < 0)
          by (first [apply Q3; lra | apply Q4; lra]); specialize (Hneg Hq));
    decide_cmp;
    try (rewrite Rabs_left by assumption);
    lra.
Qed.

Lemma get_angle_quadrant_intervals_witness :
  exists a, get_angle ((0, 0), (-3, 4)) = Ok a /\ PI < a < 3 * PI / 2.
Proof.
  destruct (get_angle_quadrant_intervals 0 0 (-3) 4) as (a & Ha & _ & _ & H & _).
  exists a. split; [exact Ha | apply H; lra].
Defined.

(** The components of the drag, recovered from its arctangent and its length. *)
Lemma atan_components (dx dy : R) :
  dx <> 0 ->
  cos (atan (dy / dx)) * R_sqrt.sqrt (dy ^ 2 + dx ^ 2) = Rabs dx /\
  sin (atan (dy / dx)) * R_sqrt.sqrt (dy ^ 2 + dx ^ 2) = dy / dx * Rabs dx.
Proof.
  intros Hdx. set (q := dy / dx).
  assert (Hlen : R_sqrt.sqrt (dy ^ 2 + dx ^ 2) = Rabs dx * R_sqrt.sqrt (1 + q²)).
  { replace (dy ^ 2 + dx ^ 2) with (dx² * (1 + q²))
      by (subst q; unfold Rsqr; field; assumption).
    rewrite sqrt_mult_alt by apply Rle_0_sqr.
    rewrite sqrt_Rsqr_abs. reflexivity. }
  assert (Hs : 0 < R_sqrt.sqrt (1 + q²)).
  { apply sqrt_lt_R0. pose proof (Rle_0_sqr q). lra. }
  rewrite cos_atan, sin_atan, Hlen. split; field; lra.
Qed.

Lemma launch_components (x y mouse_x mouse_y : R) :
  mouse_x <> x -> mouse_y <> y ->
  let a := adjust x y mouse_x mouse_y (raw_angle (mouse_x - x) (mouse_y - y)) in
  let p := R_sqrt.sqrt ((mouse_y - y) ^ 2 + (mouse_x - x) ^ 2) / 8 in
  cos a * p = (mouse_x - x) / 8 /\ sin a * p = (y - mouse_y) / 8.
Proof.
  intros Hx Hy a p.
  assert (Hdx : mouse_x - x <> 0) by lra.
  destruct (atan_components (mouse_x - x) (mouse_y - y) Hdx) as [Hc Hs].
  destruct (raw_angle_sign (mouse_x - x) (mouse_y - y) Hdx) as (_ & Hpos & Hneg).
  destruct (quotient_sign (mouse_x - x) (mouse_y - y) Hdx) as (Q1 & Q2 & Q3 & Q4).
  assert (Hq : (mouse_y - y) / (mouse_x - x) * (mouse_x - x) = mouse_y - y)
    by (field; assumption).
  subst a p. unfold raw_angle in *.
  destruct (Req_dec_T (mouse_x - x) 0); [contradiction |].
  set (q := (mouse_y - y) / (mouse_x - x)) in *.
  set (S := R_sqrt.sqrt ((mouse_y - y) ^ 2 + (mouse_x - x) ^ 2)) in *.
  destruct (Rdichotomy _ _ Hx) as [Hx' | Hx'];
    destruct (Rdichotomy _ _ Hy) as [Hy' | Hy'];
    decide_cmp.
  - (* left and above *)
    rewrite cos_minus, sin_minus, cos_PI, sin_PI.
    rewrite Rabs_left in Hc, Hs by lra. split; nra.
  - (* left and below *)
    rewrite Rabs_left by (apply Hneg, Q4; lra).
    replace (PI + - atan q) with (PI - atan q) by ring.
    rewrite cos_minus, sin_minus, cos_PI, sin_PI.
    rewrite Rabs_left in Hc, Hs by lra. split; nra.
  - (* right and above *)
    rewrite Rabs_left by (apply Hneg, Q3; lra).
    rewrite cos_neg, sin_neg.
    rewrite Rabs_right in Hc, Hs by lra. split; nra.
  - (* right and below *)
    rewrite cos_minus, sin_minus, cos_2PI, sin_2PI.
    rewrite Rabs_right in Hc, Hs by lra. split; nra.
Qed.



Lemma sqrt_square_abs (a : R) : R_sqrt.sqrt (a ^ 2) = Rabs a.
Proof. rewrite <- Rsqr_pow2. apply sqrt_Rsqr_abs. Qed.

(** X4: drags along the axes ignore the side the pointer is on.  A vertical
    drag (mouse_x = x) launches the ball straight up at |Δy|/8, also when the
    pointer is below the ball; a horizontal drag (mouse_y = y) launches it to
    the right at |Δx|/8, also when the pointer is to the left. *)
Theorem launch_on_axes (x y mouse_x mouse_y t : R) :
  (mouse_x = x ->
   exists p a,
     get_power ((x, y), (mouse_x, mouse_y)) = Ok p /\
     get_angle ((x, y), (mouse_x, mouse_y)) = Ok a /\
     Ball.next_position x y p a t =
       (x, y - Rabs (mouse_y - y) / 8 * t + 4.9 * t ^ 2)) /\
  (mouse_y = y -> mouse_x <> x ->
   exists p a,
     get_power ((x, y), (mouse_x, mouse_y)) = Ok p /\
     get_angle ((x, y), (mouse_x, mouse_y)) = Ok a /\
     Ball.next_position x y p a t =
       (x + Rabs (mouse_x - x) / 8 * t, y + 4.9 * t ^ 2)).
Proof.
  split.
  - intros ->. rewrite get_power_ok, get_angle_vertical.
    eexists _, _. split; [reflexivity |]. split; [reflexivity |].
    replace ((mouse_y - y) ^ 2 + (x - x) ^ 2) with ((mouse_y - y) ^ 2) by ring.
    rewrite sqrt_square_abs.
    unfold Ball.next_position. rewrite cos_PI2, sin_PI2. f_equal; lra.
  - intros -> Hx. rewrite get_power_ok, get_angle_horizontal by assumption.
    eexists _, _. split; [reflexivity |]. split; [reflexivity |].
    replace ((y - y) ^ 2 + (mouse_x - x) ^ 2) with ((mouse_x - x) ^ 2) by ring.
    rewrite sqrt_square_abs.
    unfold Ball.next_position. rewrite cos_0, sin_0. f_equal; lra.
Qed.

Lemma launch_on_axes_witness :
  (exists p a,
     get_power ((600, 489), (600, 499)) = Ok p /\
     get_angle ((600, 489), (600, 499)) = Ok a /\
     Ball.next_position 600 489 p a 1 =
       (600, 489 - Rabs (499 - 489) / 8 * 1 + 4.9 * 1 ^ 2)) /\
  (exists p a,
     get_power ((600, 489), (590, 489)) = Ok p /\
     get_angle ((600, 489), (590, 489)) = Ok a /\
     Ball.next_position 600 489 p a 1 =
       (600 + Rabs (590 - 600) / 8 * 1, 489 + 4.9 * 1 ^ 2)).
Proof.
  split.
  - apply (proj1 (launch_on_axes 600 489 600 499 1)). reflexivity.
  - apply (proj2 (launch_on_axes 600 489 590 489 1)); [reflexivity | lra].
Defined.

Lemma raw_angle_scale (k dx dy : R) :
  0 < k -> raw_angle (k * dx) (k * dy) = raw_angle dx dy.
Proof.
  intros Hk. unfold raw_angle.
  destruct (Req_dec_T (k * dx) 0) as [E | N]; destruct (Req_dec_T dx 0) as [E' | N'].
  - reflexivity.
  - exfalso. apply N'. nra.
  - exfalso. apply N. nra.
  - f_equal. field. split; lra.
Qed.

(** X5: stretching a drag by a factor k > 0 about the ball leaves the angle
    as it is and multiplies the power by k. *)
Theorem drag_scaling (x y mouse_x mouse_y k : R) :
  0 < k ->
  exists p a,
    get_power ((x, y), (mouse_x, mouse_y)) = Ok p /\
    get_angle ((x, y), (mouse_x, mouse_y)) = Ok a /\
    get_power ((x, y), (x + k * (mouse_x - x), y + k * (mouse_y - y))) = Ok (k * p) /\
    get_angle ((x, y), (x + k * (mouse_x - x), y + k * (mouse_y - y))) = Ok a.
Proof.
  intros Hk. rewrite !get_power_ok, !get_angle_ok.
  eexists _, _. split; [reflexivity |]. split; [reflexivity |]. split; f_equal.
  - replace ((y + k * (mouse_y - y) - y) ^ 2 + (x + k * (mouse_x - x) - x) ^ 2)
      with (k ^ 2 * ((mouse_y - y) ^ 2 + (mouse_x - x) ^ 2)) by ring.
    rewrite sqrt_mult_alt by apply pow2_ge_0.
    rewrite sqrt_pow2 by lra. lra.
  - replace (x + k * (mouse_x - x) - x) with (k * (mouse_x - x)) by ring.
    replace (y + k * (mouse_y - y) - y) with (k * (mouse_y - y)) by ring.
    rewrite raw_angle_scale by assumption.
    set (r := raw_angle (mouse_x - x) (mouse_y - y)).
    destruct (Rtotal_order mouse_x x) as [Hx | [Hx | Hx]];
      destruct (Rtotal_order mouse_y y) as [Hy | [Hy | Hy]];
      try (assert (k * (mouse_x - x) < 0) by nra);
      try (assert (0 < k * (mouse_x - x)) by nra);
      try (assert (k * (mouse_x - x) = 0) by nra);
      try (assert (k * (mouse_y - y) < 0) by nra);
      try (assert (0 < k * (mouse_y - y)) by nra);
      try (assert (k * (mouse_y - y) = 0) by nra);
      decide_cmp; reflexivity.
Qed.

Lemma drag_scaling_witness :
  exists p a,
    get_power ((600, 489), (700, 389)) = Ok p /\
    get_angle ((600, 489), (700, 389)) = Ok a /\
    get_power ((600, 489), (600 + 3 * (700 - 600), 489 + 3 * (389 - 489))) = Ok (3 * p) /\
    get_angle ((600, 489), (600 + 3 * (700 - 600), 489 + 3 * (389 - 489))) = Ok a.
Proof.
  apply (drag_scaling 600 489 700 389 3). lra.
Defined.

(** X6: a drag and the drag back (from the pointer to the ball) have the same
    power; when the pointer is above the ball and not straight above it, the
    angle of the drag back is the angle of the drag plus π. *)
Theorem drag_reversal (x y mouse_x mouse_y : R) :
  exists p a,
    get_power ((x, y), (mouse_x, mouse_y)) = Ok p /\
    get_power ((mouse_x, mouse_y), (x, y)) = Ok p /\
    get_angle ((x, y), (mouse_x, mouse_y)) = Ok a /\
    (mouse_x <> x -> mouse_y < y ->
     get_angle ((mouse_x, mouse_y), (x, y)) = Ok (a + PI)).
Proof.
  rewrite !get_power_ok, !get_angle_ok.
  eexists _, _. split; [reflexivity |]. split; [| split; [reflexivity |]].
  - replace ((y - mouse_y) ^ 2 + (x - mouse_x) ^ 2)
      with ((mouse_y - y) ^ 2 + (mouse_x - x) ^ 2) by ring.
    reflexivity.
  - intros Hx Hy. f_equal.
    assert (Hdx : mouse_x - x <> 0) by lra.
    assert (Hr : raw_angle (x - mouse_x) (y - mouse_y) =
                 raw_angle (mouse_x - x) (mouse_y - y)).
    { unfold raw_angle.
      destruct (Req_dec_T (x - mouse_x) 0); [lra |].
      destruct (Req_dec_T (mouse_x - x) 0); [lra |].
      f_equal. field. split; lra. }
    rewrite Hr.
    destruct (raw_angle_sign (mouse_x - x) (mouse_y - y) Hdx) as (_ & Hpos & Hneg).
    destruct (quotient_sign (mouse_x - x) (mouse_y - y) Hdx) as (Q1 & Q2 & Q3 & Q4).
    destruct (Rdichotomy _ _ Hx) as [Hx' | Hx']; decide_cmp.
    + lra.
    + rewrite Rabs_left by (apply Hneg, Q3; lra). lra.
Qed.

Lemma drag_reversal_witness :
  exists p a,
    get_power ((600, 489), (700, 389)) = Ok p /\
    get_power ((700, 389), (600, 489)) = Ok p /\
    get_angle ((600, 489), (700, 389)) = Ok a /\
    get_angle ((700, 389), (600, 489)) = Ok (a + PI).
Proof.
  destruct (drag_reversal 600 489 700 389) as (p & a & H1 & H2 & H3 & H4).
  exists p, a. repeat split; try assumption. apply H4; lra.
Defined.

(** * Further properties of the kinematics *)

(** X7: the trajectory of [next_position] is the parabola through the start.
    With v = sin(angle)·power: the ball is at the start at time 0; it is
    never higher on screen than start_y − v²/19.6 and is exactly there at
    time v/9.8; at time v/4.9 it is back at the start height, at
    x = start_x + power²·sin(2·angle)/9.8. *)
Theorem parabola_landmarks (start_x start_y power angle : R) :
  let v := sin angle * power in
  let at_time := Ball.next_position start_x start_y power angle in
  at_time 0 = (start_x, start_y) /\
  (forall t, start_y - v ^ 2 / 19.6 <= snd (at_time t)) /\
  snd (at_time (v / 9.8)) = start_y - v ^ 2 / 19.6 /\
  at_time (v / 4.9) = (start_x + power ^ 2 * sin (2 * angle) / 9.8, start_y).
Proof.
  intros v at_time. subst at_time. unfold Ball.next_position; cbn [snd].
  fold v. repeat split.
  - f_equal; ring.
  - intros t. pose proof (pow2_ge_0 (9.8 * t - v)). nra.
  - clearbody v. nra.
  - rewrite sin_2a. fold v. set (u := cos angle * power).
    replace (power ^ 2 * (2 * sin angle * cos angle)) with (2 * (u * v))
      by (subst u v; ring).
    clearbody u v. f_equal; nra.
Qed.

(** * Further properties of the frame loop *)

(** ** Event batches *)

(** X9: within one batch of events the first press decides the launch:
    later presses of the same batch find the ball shooting and change
    nothing.  (Events of other types before the press do not matter.) *)
Theorem first_press_wins (g : globals) (mouse : pixel) (before rest : list event) :
  shooting g = false ->
  Forall (fun e => e = OtherEvent) before ->
  ~ In QUIT rest ->
  handle_events (before ++ MOUSEBUTTONDOWN mouse :: rest) g =
  on_event (MOUSEBUTTONDOWN mouse) g.
Proof.
  intros Hs Hb Hq. induction Hb as [| e before -> _ IH].
  - cbn [app handle_events].
    destruct (press_idle g mouse Hs) as (p & a & _ & _ & Hev).
    rewrite Hev. cbn [bind].
    apply handle_events_shooting; [reflexivity | assumption].
  - cbn [app handle_events on_event bind]. exact IH.
Qed.

Lemma first_press_wins_witness :
  handle_events
    ([ OtherEvent ] ++ MOUSEBUTTONDOWN (700, 389)%Z ::
       [ MOUSEBUTTONDOWN (0, 0)%Z; OtherEvent ]) initial =
  on_event (MOUSEBUTTONDOWN (700, 389)%Z) initial.
Proof.
  apply (first_press_wins initial (700, 389)%Z [ OtherEvent ]).
  - reflexivity.
  - repeat constructor.
  - cbn. intros [H | [H | []]]; discriminate H.
Defined.

(** ** What a frame shows *)

(** X10: the frame of a pass shows the state after the move of that pass
    and before its events are handled: the ball is drawn at the moved
    position, and the frame has an aiming line exactly when the loop is not
    shooting then; the line is white and goes from the ball to the pointer. *)
Theorem frame_shows_moved_state (i : input) (g : globals)
                                (c : rgb) (from : point) (to : pixel) :
  shown_ball (fst (iteration i g)) = Some (position (move g)) /\
  (In (DrawLine c from to) (fst (iteration i g)) <->
   shooting (move g) = false /\ c = WHITE /\ from = position (move g) /\ to = fst i).
Proof.
  cbn [iteration fst]. unfold draw_window, draw_line, Ball.draw, position.
  split; [reflexivity |].
  destruct (shooting (move g)); cbn [negb app In]; split.
  - intros [H | [H | [H | [H | []]]]]; discriminate H.
  - intros [H _]. discriminate H.
  - intros [H | [H | [H | [H | [H | []]]]]]; try discriminate H.
    injection H as <- <- <-. repeat split.
  - intros (_ & -> & -> & ->). right. right. right. left. reflexivity.
Qed.

(** ** Invariants of a session *)

Section Preservation.

Variable P : globals -> Prop.
Hypothesis P_move : forall g, P g -> P (move g).
Hypothesis P_event : forall e g g', P g -> on_event e g = Ok g' -> P g'.

Lemma handle_events_preserves (events : list event) :
  forall g g', P g -> handle_events events g = Ok g' -> P g'.
Proof.
  induction events as [| e rest IH]; intros g g' HP He; cbn [handle_events] in He.
  - congruence.
  - destruct (on_event e g) as [g1 |] eqn:H1; [| discriminate He].
    apply (IH g1 g'); [apply (P_event e g g1) |]; assumption.
Qed.

Lemma run_preserves (inputs : list input) :
  forall g g', P g -> run inputs g = Ok g' -> P g'.
Proof.
  induction inputs as [| i rest IH]; intros g g' HP Hr; cbn [run] in Hr.
  - congruence.
  - cbn [iteration snd] in Hr.
    destruct (handle_events (snd i) (move g)) as [g1 |] eqn:H1; [| discriminate Hr].
    apply (IH g1 g'); [| assumption].
    apply (handle_events_preserves (snd i) (move g) g1); [apply P_move |]; assumption.
Qed.

End Preservation.

Lemma flight_invariant_initial : flight_invariant initial.
Proof.
  unfold flight_invariant, initial; cbn.
  repeat split; try discriminate. intros _. apply START_Y_489.
Qed.

Lemma flight_invariant_move (g : globals) :
  flight_invariant g -> flight_invariant (move g).
Proof.
  intros HI. unfold move. destruct (shooting g) eqn:Hs; [| exact HI].
  destruct HI as (Hr & Hc & _ & Hfly).
  destruct (Hfly Hs) as (Hsy & _ & k & Hk).
  destruct (leb _ _); unfold flight_invariant, position;
    cbn [ball shooting start_x start_y time power angle
         Ball.set_x Ball.set_y Ball.x Ball.y Ball.radius Ball.color].
  - split; [assumption |]. split; [assumption |]. split; [discriminate |].
    intros _. split; [assumption |]. split.
    + destruct (Ball.next_position _ _ _ _ _); reflexivity.
    + exists (S k). rewrite S_INR, Hk. lra.
  - split; [assumption |]. split; [assumption |].
    split; [intros _; apply START_Y_489 | discriminate].
Qed.

Lemma flight_invariant_event (e : event) (g g' : globals) :
  flight_invariant g -> on_event e g = Ok g' -> flight_invariant g'.
Proof.
  intros HI He. destruct e; cbn [on_event] in He.
  - discriminate He.
  - destruct (shooting g) eqn:Hs; cbn [negb] in He; [congruence |].
    destruct (press_idle g mouse Hs) as (p & a & _ & _ & Hev).
    unfold on_event in Hev. rewrite Hs in Hev. cbn [negb] in Hev.
    rewrite Hev in He. injection He as <-.
    destruct HI as (Hr & Hc & Hidle & _).
    unfold flight_invariant, launched, position;
      cbn [ball shooting start_x start_y time power angle].
    split; [assumption |]. split; [assumption |]. split; [discriminate |].
    intros _. split; [apply Hidle; exact Hs |]. split.
    + unfold Ball.next_position. f_equal; ring.
    + exists 0%nat. cbn [INR]. lra.
  - congruence.
Qed.

(** X11: at the top of every pass of a session started from the initial
    state, the ball has radius 10 and is white (so the ground test always
    compares with 490), and while shooting the flight started on the ground
    (start_y = 489), the elapsed time is a whole multiple of 0.05, and the
    ball is exactly where [next_position] puts it for the stored launch
    parameters and elapsed time. *)
Theorem session_flight_invariant (inputs : list input) (g : globals) :
  run inputs initial = Ok g ->
  Ball.radius (ball g) = 10 /\
  Ball.color (ball g) = WHITE /\
  HEIGHT - Ball.radius (ball g) = 490 /\
  (shooting g = true ->
   start_y g = 489 /\
   position g =
     Ball.next_position (start_x g) (start_y g) (power g) (angle g) (time g) /\
   exists k : nat, time g = 0.05 * INR k).
Proof.
  intros Hr.
  destruct (run_preserves flight_invariant flight_invariant_move
              flight_invariant_event inputs initial g flight_invariant_initial Hr)
    as (Hrad & Hcol & _ & Hfly).
  unfold RADIUS in Hrad.
  repeat split; try assumption.
  - rewrite Hrad. unfold HEIGHT. lra.
  - apply Hfly; assumption.
  - apply Hfly; assumption.
  - apply Hfly; assumption.
Qed.

Lemma session_flight_invariant_witness :
  let g := in_flight (launched initial 12.5 0) 0.5 in
  Ball.radius (ball g) = 10 /\
  Ball.color (ball g) = WHITE /\
  HEIGHT - Ball.radius (ball g) = 490 /\
  (shooting g = true ->
   start_y g = 489 /\
   position g =
     Ball.next_position (start_x g) (start_y g) (power g) (angle g) (time g) /\
   exists k : nat, time g = 0.05 * INR k).
Proof.
  intros g. apply (session_flight_invariant shot_right g). apply run_shot_right.
Defined.

(** ** Every flight ends *)





(** ** A flight, in terms of the press that started it *)



(** * Sessions: the ground line, landing and the resting place *)

(** ** The vertical velocity of a launch from the ground *)

Lemma press_vertical_speed (x y : R) (yz mx my : Z) (p a : R) :
  y = IZR yz ->
  get_power ((x, y), (IZR mx, IZR my)) = Ok p ->
  get_angle ((x, y), (IZR mx, IZR my)) = Ok a ->
  exists m : Z, sin a * p = IZR m / 8.
Proof.
  intros -> Hp Ha.
  destruct (Req_dec_T (IZR mx) x) as [Ex | Nx].
  - (* straight up or down: the angle is π/2 whatever the side *)
    subst x. rewrite get_angle_vertical in Ha. rewrite get_power_ok in Hp.
    assert (Ea : a = PI / 2) by congruence.
    assert (Ep : p = R_sqrt.sqrt ((IZR my - IZR yz) ^ 2 + (IZR mx - IZR mx) ^ 2) / 8)
      by congruence.
    exists (Z.abs (my - yz)).
    rewrite Ea, Ep, sin_PI2, abs_IZR, minus_IZR.
    replace ((IZR my - IZR yz) ^ 2 + (IZR mx - IZR mx) ^ 2)
      with ((IZR my - IZR yz) ^ 2) by ring.
    rewrite sqrt_square_abs. lra.
  - destruct (Req_dec_T (IZR my) (IZR yz)) as [Ey | Ny].
    + (* level with the ball: the angle is 0 *)
      rewrite Ey, get_angle_horizontal in Ha by assumption.
      assert (Ea : a = 0) by congruence.
      exists 0%Z. rewrite Ea, sin_0. lra.
    + rewrite get_power_ok in Hp. rewrite get_angle_ok in Ha.
      destruct (launch_components x (IZR yz) (IZR mx) (IZR my) Nx Ny) as [_ Hs].
      cbv zeta in Hs.
      assert (Ea : a = adjust x (IZR yz) (IZR mx) (IZR my)
                          (raw_angle (IZR mx - x) (IZR my - IZR yz))) by congruence.
      assert (Ep : p = R_sqrt.sqrt ((IZR my - IZR yz) ^ 2 + (IZR mx - x) ^ 2) / 8)
        by congruence.
      exists (yz - my)%Z. rewrite Ea, Ep, Hs, minus_IZR. reflexivity.
Qed.


(** ** The session invariant *)

Lemma shooting_cases (g : globals) : shooting g = true \/ shooting g = false.
Proof. destruct (shooting g); [left | right]; reflexivity. Qed.

Lemma session_invariant_initial : session_invariant initial.
Proof.
  split; [apply flight_invariant_initial |]. split.
  - intros H. discriminate H.
  - intros _. left. reflexivity.
Qed.

Lemma session_invariant_move (g : globals) :
  session_invariant g -> session_invariant (move g).
Proof.
  intros (HF & Hfly & Hidle).
  split; [apply flight_invariant_move; exact HF |].
  destruct HF as (Hrad & _ & _ & Hpath).
  destruct (shooting_cases g) as [Hs | Hs]; [| rewrite (move_idle g Hs); split; assumption].
  destruct (Hfly Hs) as ((k & Hk & Hlow) & Hm).
  destruct (Hpath Hs) as (_ & Hpos & _).
  assert (Hx : Ball.x (ball g) = flight_x g (time g)) by exact (f_equal fst Hpos).
  assert (Hy : Ball.y (ball g) = flight_y g (time g)) by exact (f_equal snd Hpos).
  destruct (Rle_dec (Ball.y (ball g)) (HEIGHT - Ball.radius (ball g))) as [Hle | Hgt].
  - rewrite (move_airborne g Hs Hle). split; [| intros H; discriminate H].
    intros _. split; [| exact Hm].
    exists (S k). split.
    + cbn [in_flight time]. rewrite S_INR, Hk. lra.
    + intros j Hj. change (flight_y (in_flight g (time g + 0.05)) (0.05 * INR j))
        with (flight_y g (0.05 * INR j)).
      destruct (Nat.eq_dec j k) as [-> | Hne]; [| apply Hlow; lia].
      rewrite <- Hk, <- Hy, <- Hrad. exact Hle.
  - assert (Hlt : HEIGHT - Ball.radius (ball g) < Ball.y (ball g)) by lra.
    rewrite (move_landing g Hs Hlt). split; [intros H; discriminate H |].
    intros _. right. exists k. split; [split; assumption |]. split.
    + change (HEIGHT - RADIUS < flight_y g (time g)). rewrite <- Hy, <- Hrad. exact Hlt.
    + unfold position; cbn [ball Ball.set_y Ball.x Ball.y].
      rewrite Hx, START_Y_489. reflexivity.
Qed.

Lemma session_invariant_event (e : event) (g g' : globals) :
  session_invariant g -> on_event e g = Ok g' -> session_invariant g'.
Proof.
  intros HI He.
  assert (HF' : flight_invariant g')
    by (apply (flight_invariant_event e g g'); [apply HI | exact He]).
  destruct e; cbn [on_event] in He.
  - discriminate He.
  - destruct (shooting_cases g) as [Hs | Hs]; rewrite Hs in He; cbn [negb] in He.
    + injection He as <-. exact HI.
    + destruct HI as ((_ & _ & Hy & _) & _ & _).
      destruct (press_idle g mouse Hs) as (p & a & Hp & Ha & Hev).
      unfold on_event in Hev. rewrite Hs in Hev. cbn [negb] in Hev.
      rewrite Hev in He. injection He as <-.
      split; [exact HF' |]. split; [| intros H; discriminate H].
      intros _. split.
      * exists 0%nat. split; [cbn; lra | intros j Hj; lia].
      * unfold position, of_pixel in Hp, Ha.
        apply (press_vertical_speed (Ball.x (ball g)) (Ball.y (ball g)) 489
                                    (fst mouse) (snd mouse) p a);
          [apply Hy; exact Hs | exact Hp | exact Ha].
  - injection He as <-. exact HI.
Qed.

Lemma session_invariant_run (inputs : list input) (g : globals) :
  run inputs initial = Ok g -> session_invariant g.
Proof.
  apply (run_preserves session_invariant session_invariant_move
                       session_invariant_event inputs initial g).
  apply session_invariant_initial.
Qed.


(** ** Landing *)




(** ** The resting place *)

Lemma start_kept_by_move (g : globals) : start_y (move g) = start_y g.
Proof.
  unfold move. destruct (shooting g); [| reflexivity].
  destruct (leb _ _); reflexivity.
Qed.

Lemma press_sets_start (g g' : globals) (mouse : pixel) :
  flight_invariant g ->
  on_event (MOUSEBUTTONDOWN mouse) g = Ok g' -> start_y g' = 489.
Proof.
  intros (_ & _ & Hidle & Hfly) He. cbn [on_event] in He.
  destruct (shooting_cases g) as [Hs | Hs]; rewrite Hs in He; cbn [negb] in He.
  - injection He as <-. apply Hfly. exact Hs.
  - destruct (press_idle g mouse Hs) as (p & a & _ & _ & Hev).
    unfold on_event in Hev. rewrite Hs in Hev. cbn [negb] in Hev.
    rewrite Hev in He. injection He as <-. apply Hidle. exact Hs.
Qed.

Lemma launched_once_move (g : globals) :
  flight_invariant g /\ start_y g = 489 ->
  flight_invariant (move g) /\ start_y (move g) = 489.
Proof.
  intros [HF H]. split; [apply flight_invariant_move; exact HF |].
  rewrite start_kept_by_move. exact H.
Qed.

Lemma launched_once_event (e : event) (g g' : globals) :
  flight_invariant g /\ start_y g = 489 ->
  on_event e g = Ok g' ->
  flight_invariant g' /\ start_y g' = 489.
Proof.
  intros [HF H] He. split; [apply (flight_invariant_event e g g' HF He) |].
  destruct e.
  - discriminate He.
  - apply (press_sets_start g g' mouse HF He).
  - cbn [on_event] in He. injection He as <-. exact H.
Qed.

Lemma handle_events_press_start (events : list event) :
  forall g g' mouse,
    flight_invariant g ->
    In (MOUSEBUTTONDOWN mouse) events ->
    handle_events events g = Ok g' -> start_y g' = 489.
Proof.
  induction events as [| e rest IH]; intros g g' mouse HF Hin He; [destruct Hin |].
  cbn [handle_events] in He.
  destruct (on_event e g) as [g1 |] eqn:H1; [| discriminate He]. cbn [bind] in He.
  destruct Hin as [-> | Hin].
  - apply (handle_events_preserves
             (fun s => flight_invariant s /\ start_y s = 489)
             launched_once_event rest g1 g'); [| exact He].
    split; [apply (flight_invariant_event _ g g1 HF H1) |].
    apply (press_sets_start g g1 mouse HF H1).
  - apply (IH g1 g' mouse); [| exact Hin | exact He].
    apply (flight_invariant_event e g g1 HF H1).
Qed.

Lemma run_press_start (inputs : list input) :
  forall g g',
    flight_invariant g -> has_press inputs ->
    run inputs g = Ok g' -> start_y g' = 489.
Proof.
  induction inputs as [| i rest IH]; intros g g' HF (i0 & mouse & Hi0 & Hin) Hr.
  - destruct Hi0.
  - cbn [run iteration snd] in Hr.
    destruct (handle_events (snd i) (move g)) as [g1 |] eqn:H1; [| discriminate Hr].
    cbn [bind] in Hr.
    assert (HF1 : flight_invariant g1).
    { apply (handle_events_preserves flight_invariant flight_invariant_event
               (snd i) (move g) g1); [apply flight_invariant_move; exact HF | exact H1]. }
    destruct Hi0 as [<- | Hi0].
    + apply (run_preserves (fun s => flight_invariant s /\ start_y s = 489)
               launched_once_move launched_once_event rest g1 g'); [| exact Hr].
      split; [exact HF1 |].
      apply (handle_events_press_start (snd i) (move g) g1 mouse);
        [apply flight_invariant_move; exact HF | exact Hin | exact H1].
    + apply (IH g1 g' HF1); [| exact Hr].
      exists i0, mouse. split; assumption.
Qed.

(** C3, amended: at the top of every pass of a session started from the
    initial state exactly one of two situations holds: shooting = false with
    the ball at rest on the ground, y = 489, or shooting = true with valid
    launch parameters (power ≥ 0, angle in [0, 2π), elapsed time ≥ 0).  At
    rest the ball is at the launch pad (600, 489) as long as no press has
    been handled; once one has, it is at the x where the last flight ended:
    the x of [next_position] for the stored launch parameters at the stored
    elapsed time, the first tick at which that flight was below the ground
    line. *)
Theorem ground_invariant (inputs : list input) (g : globals) :
  run inputs initial = Ok g ->
  (idle_on_ground g \/ airborne_valid g) /\
  ~ (idle_on_ground g /\ airborne_valid g) /\
  (no_press inputs -> idle_at_pad g) /\
  (has_press inputs -> shooting g = false -> rests_where_flight_ended g).
Proof.
  intros Hr. destruct (reachable_inv inputs g Hr) as [Hidle Hair].
  split; [| split; [| split]].
  - destruct (shooting_cases g) as [Hs | Hs].
    + right. split; [exact Hs | apply Hair; exact Hs].
    + left. split; [exact Hs |]. split; [apply Hidle; exact Hs |].
      rewrite move_idle by assumption. reflexivity.
  - intros [(Hf & _) (Ht & _)]. congruence.
  - intros Hn. rewrite (run_no_press inputs g Hn Hr). apply idle_at_pad_initial.
  - intros Hp Hs.
    destruct (session_invariant_run inputs g Hr) as (_ & _ & Hrest).
    destruct (Hrest Hs) as [-> | H]; [| exact H].
    pose proof (run_press_start inputs initial initial flight_invariant_initial Hp Hr) as H.
    cbn in H. lra.
Qed.

Lemma ground_invariant_witness :
  let g := mkGlobals (Ball.mk 606.25 489 RADIUS WHITE) false START_X START_Y 0.5 12.5 0 in
  ((idle_on_ground g \/ airborne_valid g) /\
   ~ (idle_on_ground g /\ airborne_valid g) /\
   rests_where_flight_ended g) /\
  idle_at_pad initial.
Proof.
  intros g. split.
  - destruct (ground_invariant (shot_right ++ [ ((700, 489)%Z, []) ]) g
                               run_shot_right_landed) as (H1 & H2 & _ & H4).
    split; [exact H1 |]. split; [exact H2 |]. apply H4; [| reflexivity].
    exists ((700, 489)%Z, [ MOUSEBUTTONDOWN (700, 489)%Z ]), (700, 489)%Z.
    split; [left; reflexivity | left; reflexivity].
  - apply (ground_invariant [ ((700, 489)%Z, [ OtherEvent ]) ] initial).
    + reflexivity.
    + intros i m [<- | []] [H | []]. discriminate H.
Defined.

(** * Totality of the domain operations, with the range of [** 2] *)

Lemma pow2_in_range (a : R) : a ^ 2 < FLOAT_RANGE -> pow2 a = Ok (a ^ 2).
Proof.
  intros H. unfold pow2. destruct (Rle_dec FLOAT_RANGE (a ^ 2)); [lra | reflexivity].
Qed.

Lemma pow2_overflow (a : R) : FLOAT_RANGE <= a ^ 2 -> pow2 a = Raise OverflowError.
Proof.
  intros H. unfold pow2. destruct (Rle_dec FLOAT_RANGE (a ^ 2)); [reflexivity | lra].
Qed.

Lemma pow2_raise (a : R) (ex : exn) : pow2 a = Raise ex -> ex = OverflowError.
Proof.
  unfold pow2. destruct (Rle_dec FLOAT_RANGE (a ^ 2)); congruence.
Qed.

Lemma square_abs (a : R) : a ^ 2 = Rabs a * Rabs a.
Proof.
  unfold Rabs. destruct (Rcase_abs a); ring.
Qed.

Lemma safe_square (a : R) : Rabs a <= SAFE_OPERAND -> a ^ 2 < FLOAT_RANGE.
Proof.
  intros H. rewrite square_abs. pose proof (Rabs_pos a) as H0.
  assert (Hs : SAFE_OPERAND * SAFE_OPERAND < FLOAT_RANGE).
  { unfold SAFE_OPERAND, FLOAT_RANGE. rewrite <- mult_IZR. apply IZR_lt.
    vm_compute. reflexivity. }
  assert (Rabs a * Rabs a <= SAFE_OPERAND * SAFE_OPERAND)
    by (apply Rmult_le_compat; assumption).
  lra.
Qed.

Lemma huge_square (a : R) : HUGE_OPERAND <= Rabs a -> FLOAT_RANGE <= a ^ 2.
Proof.
  intros H. rewrite square_abs.
  assert (H0 : 0 <= HUGE_OPERAND) by (unfold HUGE_OPERAND; apply IZR_le; vm_compute; discriminate).
  assert (Hs : FLOAT_RANGE <= HUGE_OPERAND * HUGE_OPERAND).
  { unfold HUGE_OPERAND, FLOAT_RANGE. rewrite <- mult_IZR. apply IZR_le.
    vm_compute. discriminate. }
  assert (HUGE_OPERAND * HUGE_OPERAND <= Rabs a * Rabs a)
    by (apply Rmult_le_compat; assumption).
  lra.
Qed.

(** Where the checked functions return, they return what the plain ones do. *)
Lemma checked_get_power_in_range (x y mouse_x mouse_y : R) :
  (mouse_y - y) ^ 2 < FLOAT_RANGE -> (mouse_x - x) ^ 2 < FLOAT_RANGE ->
  Checked.get_power ((x, y), (mouse_x, mouse_y)) =
  Ok (R_sqrt.sqrt ((mouse_y - y) ^ 2 + (mouse_x - x) ^ 2) / 8).
Proof.
  intros Hy Hx. unfold Checked.get_power; cbn [fst snd].
  rewrite (pow2_in_range _ Hy), (pow2_in_range _ Hx). cbn [bind].
  rewrite sqrt_ok by apply sum_squares_nonneg.
  cbn [bind]. apply truediv_ok. lra.
Qed.

Lemma checked_get_power_raise (l : line) (ex : exn) :
  Checked.get_power l = Raise ex -> ex = OverflowError.
Proof.
  destruct l as [[x y] [mx my]]. unfold Checked.get_power; cbn [fst snd].
  destruct (pow2 (my - y)) as [a |] eqn:Ha; cbn [bind];
    [| intros H; injection H as <-; apply (pow2_raise _ _ Ha)].
  destruct (pow2 (mx - x)) as [b |] eqn:Hb; cbn [bind];
    [| intros H; injection H as <-; apply (pow2_raise _ _ Hb)].
  assert (Ea : a = (my - y) ^ 2).
  { unfold pow2 in Ha. destruct (Rle_dec _ _); congruence. }
  assert (Eb : b = (mx - x) ^ 2).
  { unfold pow2 in Hb. destruct (Rle_dec _ _); congruence. }
  rewrite Ea, Eb, sqrt_ok by apply sum_squares_nonneg. cbn [bind].
  rewrite truediv_ok by lra. discriminate.
Qed.

(** C10, as stated, fails on the code: squaring a coordinate difference or a
    time of 10^200 leaves the range of float, and [get_power] and
    [next_position] raise [OverflowError] instead of returning a value. *)
Lemma domain_operations_overflow_counterexample :
  Checked.get_power ((0, 0), (IZR (10 ^ 200), 0)) = Raise OverflowError /\
  Checked.next_position 0 0 0 0 (IZR (10 ^ 200)) = Raise OverflowError.
Proof.
  assert (H : FLOAT_RANGE <= IZR (10 ^ 200) ^ 2).
  { apply huge_square. unfold HUGE_OPERAND. rewrite <- abs_IZR. apply IZR_le.
    vm_compute. discriminate. }
  split.
  - unfold Checked.get_power; cbn [fst snd].
    replace (0 - 0) with 0 by ring.
    rewrite (pow2_in_range 0) by (apply safe_square; rewrite Rabs_R0;
      unfold SAFE_OPERAND; apply IZR_le; vm_compute; discriminate).
    cbn [bind]. replace (IZR (10 ^ 200) - 0) with (IZR (10 ^ 200)) by ring.
    rewrite (pow2_overflow _ H). reflexivity.
  - unfold Checked.next_position. rewrite (pow2_overflow _ H). reflexivity.
Qed.

(** C10, amended: [get_angle] returns a value on every segment and cannot
    fail; the division (mouse_y − y)/(mouse_x − x) in it is not evaluated when
    mouse_x = x, where it would raise, so no division by zero occurs on any
    segment, a vertical one included.  [get_power] and [next_position] return
    a value, the one of the real-valued formulas, as long as the numbers they
    square (the coordinate differences, the time) are of magnitude at most
    10^153; when one of them is of magnitude 10^155 or more (a coordinate
    difference at most 10^300, so that it is a finite float) they raise
    [OverflowError]; and they never raise any other exception. *)
Theorem domain_operations_total_in_range :
  (forall l : line, exists a, get_angle l = Ok a) /\
  (forall x y mouse_x mouse_y, mouse_x = x ->
      truediv (mouse_y - y) (mouse_x - x) = Raise ZeroDivisionError /\
      get_angle ((x, y), (mouse_x, mouse_y)) = Ok (PI / 2)) /\
  (forall x y mouse_x mouse_y,
      Rabs (mouse_y - y) <= SAFE_OPERAND -> Rabs (mouse_x - x) <= SAFE_OPERAND ->
      Checked.get_power ((x, y), (mouse_x, mouse_y)) =
        Ok (R_sqrt.sqrt ((mouse_y - y) ^ 2 + (mouse_x - x) ^ 2) / 8)) /\
  (forall start_x start_y power angle time,
      Rabs time <= SAFE_OPERAND ->
      Checked.next_position start_x start_y power angle time =
        Ok (Ball.next_position start_x start_y power angle time)) /\
  (forall x y mouse_x mouse_y,
      HUGE_OPERAND <= Rabs (mouse_y - y) <= FINITE_OPERAND \/
      HUGE_OPERAND <= Rabs (mouse_x - x) <= FINITE_OPERAND ->
      Checked.get_power ((x, y), (mouse_x, mouse_y)) = Raise OverflowError) /\
  (forall start_x start_y power angle time,
      HUGE_OPERAND <= Rabs time ->
      Checked.next_position start_x start_y power angle time = Raise OverflowError) /\
  (forall (l : line) ex, Checked.get_power l = Raise ex -> ex = OverflowError) /\
  (forall start_x start_y power angle time ex,
      Checked.next_position start_x start_y power angle time = Raise ex ->
      ex = OverflowError).
Proof.
  split; [| split; [| split; [| split; [| split; [| split; [| split]]]]]].
  - intros [[x y] [mx my]]. rewrite get_angle_ok. eexists; reflexivity.
  - intros x y mouse_x mouse_y ->. split; [| apply get_angle_vertical].
    unfold truediv. destruct (Req_dec_T (x - x) 0); [reflexivity | lra].
  - intros x y mouse_x mouse_y Hy Hx.
    apply checked_get_power_in_range; apply safe_square; assumption.
  - intros sx sy p a t Ht. unfold Checked.next_position.
    rewrite (pow2_in_range t (safe_square t Ht)). reflexivity.
  - intros x y mouse_x mouse_y H.
    destruct (Checked.get_power _) as [v | ex] eqn:Hg.
    + exfalso. unfold Checked.get_power in Hg; cbn [fst snd] in Hg.
      destruct H as [[H _] | [H _]]; apply huge_square, pow2_overflow in H.
      * rewrite H in Hg. discriminate Hg.
      * destruct (pow2 (mouse_y - y)); cbn [bind] in Hg; [| discriminate Hg].
        rewrite H in Hg. discriminate Hg.
    + f_equal. apply (checked_get_power_raise _ _ Hg).
  - intros sx sy p a t Ht. unfold Checked.next_position.
    rewrite (pow2_overflow t (huge_square t Ht)). reflexivity.
  - apply checked_get_power_raise.
  - intros sx sy p a t ex. unfold Checked.next_position.
    destruct (pow2 t) eqn:Ht; cbn [bind]; [discriminate |].
    intros H. injection H as <-. apply (pow2_raise _ _ Ht).
Qed.

Lemma domain_operations_total_in_range_witness :
  (truediv (7 - 3) (5 - 5) = Raise ZeroDivisionError /\
   get_angle ((5, 3), (5, 7)) = Ok (PI / 2)) /\
  Checked.get_power ((600, 489), (700, 389)) =
    Ok (R_sqrt.sqrt ((389 - 489) ^ 2 + (700 - 600) ^ 2) / 8) /\
  Checked.next_position 600 489 12.5 0 1 = Ok (Ball.next_position 600 489 12.5 0 1) /\
  Checked.get_power ((0, 0), (HUGE_OPERAND, 0)) = Raise OverflowError /\
  Checked.next_position 0 0 0 0 HUGE_OPERAND = Raise OverflowError.
Proof.
  destruct domain_operations_total_in_range as (_ & H2 & H3 & H4 & H5 & H6 & _).
  assert (Hsafe : forall z : Z, (Z.abs z <= 1000)%Z -> Rabs (IZR z) <= SAFE_OPERAND).
  { intros z Hz. rewrite <- abs_IZR. unfold SAFE_OPERAND. apply IZR_le.
    apply (Z.le_trans _ 1000); [exact Hz | vm_compute; discriminate]. }
  assert (Hhuge : HUGE_OPERAND <= Rabs HUGE_OPERAND).
  { apply Rle_abs. }
  split; [apply (H2 5 3 5 7); reflexivity |].
  split; [apply H3 |].
  - replace (389 - 489) with (IZR (-100)) by (rewrite <- minus_IZR; reflexivity).
    apply Hsafe. vm_compute. discriminate.
  - replace (700 - 600) with (IZR 100) by (rewrite <- minus_IZR; reflexivity).
    apply Hsafe. vm_compute. discriminate.
  - split; [apply H4; apply (Hsafe 1%Z); vm_compute; discriminate |].
    split; [apply H5 | apply H6; exact Hhuge].
    right. replace (HUGE_OPERAND - 0) with HUGE_OPERAND by ring.
    split; [exact Hhuge |].
    unfold HUGE_OPERAND, FINITE_OPERAND. rewrite <- abs_IZR. apply IZR_le.
    vm_compute. discriminate.
Defined.
